(** Verification of scripts/subset-fonts.py (Palimpsestus font subsetting).

    Shallow embedding over stdpp:
    - a character is its Unicode code point ([Z]), since the script only
      ever looks at [ord(char)];
    - Python [set[str]] of characters is [gset Z];
    - the font directory [FONT_DIR] is a map from file name to the parsed
      font (its best cmap and glyph order, what fontTools exposes);
    - the output directory is a map from file name to the artifact written
      there; the subsetting engine itself is external, so an artifact
      records the source font file and the code points it was asked for. *)

From Stdlib Require Import ZArith.
From stdpp Require Import base gmap sets list strings pretty sorting.

Local Open Scope Z_scope.

(** ** Data model *)

(** What [TTFont(path)] exposes to [check_glyph_coverage]:
    [getBestCmap()] and [getGlyphOrder()]. *)
Record Font := {
  best_cmap : gmap Z string;
  glyph_order : list string
}.

(** A [.woff2] file in the output directory. *)
Record Artifact := {
  art_source : string;       (* source font file it was subset from *)
  art_chars : gset Z         (* code points handed to the Subsetter *)
}.

(** One entry of [RANGES]. [weights] is the Python dict
    [{weight: font_file}] in insertion order; [rare_only] is
    [cfg.get("rare_only")] with a missing key read as [false]. *)
Record RangeSpec := {
  start : Z;
  end_ : Z;
  label : string;
  weights : list (Z * string);
  rare_only : bool
}.

(** File-system state the script reads and writes. *)
Record World := {
  content_dirs : gmap string (list (list Z));
    (* an existing content directory, with the texts of the files that
       [glob("**/*.mdx") ++ glob("**/*.md")] finds there, in that order *)
  fonts : gmap string Font;            (* files of FONT_DIR *)
  out : gmap string Artifact           (* files of the output directory *)
}.

Definition set_out (w : World) (o : gmap string Artifact) : World :=
  {| content_dirs := content_dirs w; fonts := fonts w; out := o |}.

(** ** Configuration constants *)

Definition noto_weights : list (Z * string) :=
  [(200, "NotoSerifCJKsc-ExtraLight.otf");
   (300, "NotoSerifCJKsc-Light.otf");
   (400, "NotoSerifCJKsc-Regular.otf");
   (500, "NotoSerifCJKsc-Medium.otf");
   (600, "NotoSerifCJKsc-SemiBold.otf");
   (700, "NotoSerifCJKsc-Bold.otf");
   (900, "NotoSerifCJKsc-Black.otf")].

Definition ext_b_cfg : RangeSpec :=
  {| start := 0x20000; end_ := 0x2A6DF; label := "CJK Extension B";
     weights := noto_weights; rare_only := false |}.

Definition rare_cfg : RangeSpec :=
  {| start := 0x4E00; end_ := 0x9FFF; label := "CJK Basic (rare chars)";
     weights := noto_weights; rare_only := true |}.

Definition RANGES : list (string * RangeSpec) :=
  [("CJKExtB-Serif", ext_b_cfg); ("CJKRare-Serif", rare_cfg)].

(** [set("迌" "圊" "溷")]: U+8FCC, U+570A, U+6EB7. *)
Definition RARE_BASIC_CJK : gset Z := {[0x8FCC; 0x570A; 0x6EB7]}.

(** [dict.get] on the weights dict. *)
Fixpoint dict_get (k : Z) (d : list (Z * string)) : option string :=
  match d with
  | [] => None
  | (k', v) :: d' => if decide (k = k') then Some v else dict_get k d'
  end.

(** [f"{name}-{weight}.woff2"] *)
Definition slot (name : string) (weight : Z) : string :=
  name +:+ "-" +:+ pretty weight +:+ ".woff2".

(** ** check_glyph_coverage *)

(** [notdef = glyph_set[0] if glyph_set else '.notdef'] *)
Definition notdef_of (font : Font) : string :=
  match glyph_order font with
  | g :: _ => g
  | [] => ".notdef"
  end.

(** Body of the [for char in chars] loop. *)
Definition coverage_step (font : Font) (cp : Z)
    (acc : gset Z * gset Z) : gset Z * gset Z :=
  let '(covered, missing) := acc in
  match best_cmap font !! cp with
  | Some glyph_name =>
      if bool_decide (glyph_name <> notdef_of font
                      /\ glyph_name <> ".notdef")
      then ({[cp]} ∪ covered, missing)
      else (covered, {[cp]} ∪ missing)
  | None => (covered, {[cp]} ∪ missing)
  end.

(** [check_glyph_coverage(font_path, chars)], with [font = TTFont(font_path)]. *)
Definition check_glyph_coverage (font : Font) (chars : gset Z)
    : gset Z * gset Z :=
  set_fold (coverage_step font) (∅, ∅) chars.

(** ** generate_subset *)

Definition generate_subset (w : World) (name : string) (weight : Z)
    (font_file : string) (chars : gset Z) : World :=
  let output := slot name weight in
  match fonts w !! font_file with
  | None => w   (* source missing: warning printed for weight 400, return *)
  | Some _ =>
      if bool_decide (chars = ∅) then
        match out w !! output with
        | Some _ => set_out w (delete output (out w))
        | None => w
        end
      else
        set_out w (<[output := {| art_source := font_file;
                                   art_chars := chars |}]> (out w))
  end.

(** ** scan_content *)

(** Body of [for name, cfg in RANGES.items()] for one character. The
    Python [found[name].add(char)] updates the set stored under [name]. *)
Definition classify_char (ranges : list (string * RangeSpec))
    (found : gmap string (gset Z)) (cp : Z) : gmap string (gset Z) :=
  fold_left (fun found '(name, cfg) =>
    if bool_decide (start cfg <= cp <= end_ cfg) then
      if rare_only cfg && bool_decide (cp ∉ RARE_BASIC_CJK) then found
      else alter (union {[cp]}) name found
    else found) ranges found.

(** [for filepath in files: ... for char in text: ...] *)
Definition scan_files (ranges : list (string * RangeSpec))
    (found : gmap string (gset Z)) (files : list (list Z))
    : gmap string (gset Z) :=
  fold_left (fun found text => fold_left (classify_char ranges) text found)
    files found.

(** [{name: set() for name in RANGES}] *)
Definition empty_found (ranges : list (string * RangeSpec))
    : gmap string (gset Z) :=
  list_to_map (map (fun '(name, _) => (name, ∅)) ranges).

(** [scan_content] over the texts of the files the globs return,
    with the range table as a parameter. *)
Definition scan_content_with (ranges : list (string * RangeSpec))
    (files : list (list Z)) : gmap string (gset Z) :=
  let found := empty_found ranges in
  match files with
  | [] => found          (* "Warning: no content files found" *)
  | _ => scan_files ranges found files
  end.

Definition scan_content (files : list (list Z)) : gmap string (gset Z) :=
  scan_content_with RANGES files.

(** ** main *)

(** Lines 209-227: the set that survives the coverage check against the
    Regular (400) font, or the scanned set when that check is not run. *)
Definition effective_chars (w : World) (cfg : RangeSpec) (chars : gset Z)
    : gset Z :=
  match dict_get 400 (weights cfg) with
  | Some regular_file =>
      if bool_decide (regular_file = "") then chars  (* falsy name *)
      else match fonts w !! regular_file with
           | Some font => fst (check_glyph_coverage font chars)
           | None => chars   (* "coverage not verified" *)
           end
  | None => chars
  end.

(** Lines 232-235: remove [{name}-{weight}.woff2] for every weight. *)
Definition cleanup_step (name : string) (w : World) (entry : Z * string)
    : World :=
  let '(weight, _) := entry in
  match out w !! slot name weight with
  | Some _ => set_out w (delete (slot name weight) (out w))
  | None => w
  end.

Definition cleanup_stale (w : World) (name : string)
    (ws : list (Z * string)) : World :=
  fold_left (cleanup_step name) ws w.

(** Order used by [sorted(cfg["weights"].items())]; the keys of a dict are
    distinct, so comparing the weight decides the tuple order. *)
Definition weight_le (a b : Z * string) : Prop := a.1 <= b.1.
#[global] Instance weight_le_dec : RelDecision weight_le :=
  fun a b => Z.le_dec a.1 b.1.

(** Lines 238-243. *)
Definition generate_step (name : string) (chars : gset Z) (w : World)
    (entry : Z * string) : World :=
  let '(weight, font_file) := entry in
  match fonts w !! font_file with
  | Some _ => generate_subset w name weight font_file chars
  | None => w
  end.

Definition generate_all (w : World) (name : string)
    (ws : list (Z * string)) (chars : gset Z) : World :=
  fold_left (generate_step name chars) (merge_sort weight_le ws) w.

(** One iteration of [for name, cfg in RANGES.items()] in [main]. *)
Definition process_range (found : gmap string (gset Z)) (w : World)
    (entry : string * RangeSpec) : World :=
  let '(name, cfg) := entry in
  let chars := found !!! name in
  if bool_decide (chars = ∅) then w     (* "no characters found, skipping" *)
  else
    let chars := effective_chars w cfg chars in
    if bool_decide (chars = ∅) then cleanup_stale w name (weights cfg)
    else generate_all w name (weights cfg) chars.

(** [main()] on [sys.argv]: the exit code and the final file system. The
    content files are taken as already decoded: the run that stops with
    [UnicodeDecodeError] on a file that is not UTF-8 (lines 125-126) is not
    modelled, and neither is [os.makedirs] of line 192. *)
Definition main (argv : list string) (w : World) : Z * World :=
  match argv with
  | [_; content_dir; _] =>
      match content_dirs w !! content_dir with
      | None => (1, w)       (* "Error: content directory not found" *)
      | Some files =>
          let found := scan_content files in
          (0, fold_left (process_range found) RANGES w)
      end
  | _ => (1, w)              (* usage *)
  end.

(** ** Predicates used in the statements *)

(** The membership test of lines 130-133 read as a predicate. *)
Definition in_range (cfg : RangeSpec) (cp : Z) : Prop :=
  start cfg <= cp <= end_ cfg /\ (rare_only cfg = true -> cp ∈ RARE_BASIC_CJK).

Definition range_matches (cfg : RangeSpec) (cp : Z) : bool :=
  bool_decide (start cfg <= cp <= end_ cfg)
  && (negb (rare_only cfg) || bool_decide (cp ∈ RARE_BASIC_CJK)).

(** Does some entry named [name] accept [cp]? *)
Definition hit (ranges : list (string * RangeSpec)) (name : string) (cp : Z)
    : bool :=
  existsb (fun '(n, cfg) => bool_decide (n = name) && range_matches cfg cp)
    ranges.

(** The characters of [text] that the group [name] collects. *)
Definition hits (ranges : list (string * RangeSpec)) (name : string)
    (text : list Z) : gset Z :=
  list_to_set (filter (fun c => hit ranges name c = true) text).

(** A character the coverage check puts in [missing]. *)
Definition glyph_missing (font : Font) (cp : Z) : Prop :=
  best_cmap font !! cp = None
  \/ best_cmap font !! cp = Some (notdef_of font)
  \/ best_cmap font !! cp = Some ".notdef".

(** The output file names of the current configuration. *)
Definition current_slots : list string :=
  mjoin ((fun '(name, cfg) => (fun wf => slot name wf.1) <$> weights cfg)
           <$> RANGES).

(** ** Sanity checks on small inputs *)

Example slot_example : slot "CJKRare-Serif" 400 = "CJKRare-Serif-400.woff2".
Proof. reflexivity. Qed.

Example scan_example :
  scan_content [[0x41; 0x8FCC; 0x9000]; [0x20001]] !!! "CJKRare-Serif"
  = {[0x8FCC]}.
Proof. vm_compute. reflexivity. Qed.

Example coverage_example :
  check_glyph_coverage
    {| best_cmap := {[0x8FCC := "uni8FCC"; 0x570A := ".notdef"]};
       glyph_order := [".notdef"; "uni8FCC"] |} {[0x8FCC; 0x570A; 0x6EB7]}
  = ({[0x8FCC]}, {[0x570A; 0x6EB7]}).
Proof. vm_compute. reflexivity. Qed.

(** Concrete inputs used by the witnesses and counterexamples. *)
Definition regular_font : Font :=
  {| best_cmap := {[0x8FCC := "uni8FCC"; 0x570A := ".notdef"]};
     glyph_order := [".notdef"; "uni8FCC"] |}.

Definition stale_world : World :=
  {| content_dirs := ∅; fonts := ∅;
     out := {[slot "CJKExtB-Serif" 500 :=
               {| art_source := "NotoSerifCJKsc-Medium.otf";
                  art_chars := {[0x20001]} |}]} |}.

(** A range table whose two entries overlap on [0x8000..0x9FFF]. *)
Definition overlap_ranges : list (string * RangeSpec) :=
  [("Low", {| start := 0x4E00; end_ := 0x9FFF; label := "low";
              weights := []; rare_only := false |});
   ("Rare", {| start := 0x8000; end_ := 0x9FFF; label := "rare";
               weights := []; rare_only := true |})].

(** One corpus in two file orders. *)
Definition corpus_ab : list (list Z) := [[0x8FCC; 0x41]; [0x20001]].
Definition corpus_ba : list (list Z) := [[0x20001]; [0x8FCC; 0x41]].

(** Source fonts for the runs below. [noto_font] draws U+20001 and U+8FCC;
    [blank_font] draws nothing. *)
Definition noto_font : Font :=
  {| best_cmap := {[0x20001 := "uni20001"; 0x8FCC := "uni8FCC"]};
     glyph_order := [".notdef"; "uni20001"; "uni8FCC"] |}.

Definition blank_font : Font :=
  {| best_cmap := ∅; glyph_order := [".notdef"] |}.

(** FONT_DIR holding every configured Noto file except [missing]. *)
Definition fonts_without (missing : string) (font : Font) : gmap string Font :=
  list_to_map ((fun p => (p.2, font)) <$>
                 filter (fun p => p.2 <> missing) noto_weights).

Definition run_argv : list string :=
  ["subset-fonts.py"; "content"; "public/fonts"].

Definition stale_art : Artifact :=
  {| art_source := "NotoSerifCJKsc-Regular.otf"; art_chars := {[0x20001]} |}.

(** ASCII-only content, a complete font directory and a stale Ext-B
    artifact from an earlier run. *)
Definition ascii_world : World :=
  {| content_dirs := {["content" := [[0x41; 0x42]]]};
     fonts := fonts_without "" noto_font;
     out := {["CJKExtB-Serif-400.woff2" := stale_art]} |}.

(** Ext-B content the Regular font does not draw, same stale artifact. *)
Definition undrawn_world : World :=
  {| content_dirs := {["content" := [[0x20002]]]};
     fonts := fonts_without "" noto_font;
     out := {["CJKExtB-Serif-400.woff2" := stale_art]} |}.

(** An output file of a scheme the current [RANGES] no longer has. *)
Definition retired_world : World :=
  {| content_dirs := {["content" := [[0x20001]]]};
     fonts := fonts_without "" noto_font;
     out := {["NushuSerif-400.woff2" :=
               {| art_source := "NyushuSerif.otf"; art_chars := {[0x1B170]} |}]} |}.

(** The Regular (400) source is missing. *)
Definition no_regular_world : World :=
  {| content_dirs := {["content" := [[0x8FCC]]]};
     fonts := fonts_without "NotoSerifCJKsc-Regular.otf" noto_font;
     out := ∅ |}.

(** The ExtraLight (200) source is missing; an old 200 artifact exists. *)
Definition no_light_world : World :=
  {| content_dirs := {["content" := [[0x8FCC]]]};
     fonts := fonts_without "NotoSerifCJKsc-ExtraLight.otf" noto_font;
     out := {["CJKRare-Serif-200.woff2" := stale_art]} |}.

(** As [no_light_world], but no font draws the scanned character. *)
Definition no_light_blank_world : World :=
  {| content_dirs := {["content" := [[0x8FCC]]]};
     fonts := fonts_without "NotoSerifCJKsc-ExtraLight.otf" blank_font;
     out := {["CJKRare-Serif-200.woff2" := stale_art]} |}.

(** * Coverage oracle *)
Section Coverage.
Variable font : Font.

Lemma coverage_step_cases cp covered missing :
  coverage_step font cp (covered, missing) =
  if bool_decide (glyph_missing font cp)
  then (covered, {[cp]} ∪ missing) else ({[cp]} ∪ covered, missing).
Proof.
  unfold coverage_step, glyph_missing.
  destruct (best_cmap font !! cp) as [g|] eqn:E.
  - case_bool_decide as H1; case_bool_decide as H2; try reflexivity.
    + exfalso. destruct H1 as [Hn Hd]. destruct H2 as [H2|[H2|H2]]; congruence.
    + exfalso. apply H2. destruct (decide (g = notdef_of font)); [right; left; congruence|].
      destruct (decide (g = ".notdef")); [right; right; congruence|]. tauto.
  - rewrite bool_decide_true; [reflexivity | by left].
Qed.
Lemma check_glyph_coverage_spec chars :
  forall cp,
    (cp ∈ (check_glyph_coverage font chars).2
       <-> cp ∈ chars /\ glyph_missing font cp)
    /\ (cp ∈ (check_glyph_coverage font chars).1
       <-> cp ∈ chars /\ ~ glyph_missing font cp).
Proof.
  unfold check_glyph_coverage.
  apply (set_fold_ind_L (fun r X => forall cp,
    (cp ∈ r.2 <-> cp ∈ X /\ glyph_missing font cp)
    /\ (cp ∈ r.1 <-> cp ∈ X /\ ~ glyph_missing font cp))).
  - intros cp. simpl. set_solver.
  - intros x X [covered missing] Hx IH cp.
    rewrite coverage_step_cases.
    destruct (IH cp) as [IH2 IH1]; simpl in *.
    case_bool_decide as Hm; simpl; rewrite !elem_of_union, !elem_of_singleton;
      destruct (decide (cp = x)); subst; tauto.
Qed.
End Coverage.
Theorem check_glyph_coverage_partition (font : Font) (chars : gset Z) :
  let '(covered, missing) := check_glyph_coverage font chars in
  covered ∪ missing = chars /\ covered ∩ missing = ∅.
Proof.
  pose proof (check_glyph_coverage_spec font chars) as H.
  destruct (check_glyph_coverage font chars) as [covered missing].
  simpl in H. split; apply set_eq; intros cp; destruct (H cp) as [H2 H1];
    rewrite ?elem_of_union, ?elem_of_intersection, ?H1, ?H2.
  - assert (Decision (glyph_missing font cp)) as [|]
      by (unfold glyph_missing; apply _); tauto.
  - split; [tauto | set_solver].
Qed.
(** [C2] (as amended) A character of the input is classified [missing]
    exactly when its code point is absent from the best cmap, or maps to
    the first glyph of the glyph order ([".notdef"] when that order is
    empty), or maps to a glyph literally named [".notdef"]; otherwise it
    is [covered]. *)
Theorem check_glyph_coverage_classifies (font : Font) (chars : gset Z)
    (cp : Z) :
  cp ∈ chars ->
  let '(covered, missing) := check_glyph_coverage font chars in
  (cp ∈ missing <->
     best_cmap font !! cp = None
     \/ best_cmap font !! cp = Some (notdef_of font)
     \/ best_cmap font !! cp = Some ".notdef")
  /\ (cp ∈ covered <->
     ~ (best_cmap font !! cp = None
        \/ best_cmap font !! cp = Some (notdef_of font)
        \/ best_cmap font !! cp = Some ".notdef")).
Proof.
  intros Hin.
  pose proof (check_glyph_coverage_spec font chars cp) as [H2 H1].
  destruct (check_glyph_coverage font chars) as [covered missing].
  simpl in *. unfold glyph_missing in *. split.
  - rewrite H2. tauto.
  - rewrite H1. tauto.
Qed.

Lemma check_glyph_coverage_classifies_witness :
  0x570A ∈ ({[0x8FCC; 0x570A]} : gset Z) /\
  (let '(covered, missing) := check_glyph_coverage regular_font {[0x8FCC; 0x570A]} in
   (0x570A ∈ missing <->
      best_cmap regular_font !! 0x570A = None
      \/ best_cmap regular_font !! 0x570A = Some (notdef_of regular_font)
      \/ best_cmap regular_font !! 0x570A = Some ".notdef")
   /\ (0x570A ∈ covered <->
      ~ (best_cmap regular_font !! 0x570A = None
         \/ best_cmap regular_font !! 0x570A = Some (notdef_of regular_font)
         \/ best_cmap regular_font !! 0x570A = Some ".notdef"))).
Proof.
  assert (H : 0x570A ∈ ({[0x8FCC; 0x570A]} : gset Z)) by set_solver.
  split; [exact H |].
  exact (check_glyph_coverage_classifies regular_font {[0x8FCC; 0x570A]} 0x570A H).
Defined.
(** [C2] as stated fails: with glyph order [["space"; ".notdef"]] the
    first glyph is ["space"], and a code point mapped to [".notdef"] is
    neither absent nor mapped to that first glyph, yet it is [missing]. *)
Lemma check_glyph_coverage_first_glyph_counterexample :
  let font := {| best_cmap := {[0x41 := ".notdef"]};
                 glyph_order := ["space"; ".notdef"] |} in
  best_cmap font !! 0x41 <> None
  /\ best_cmap font !! 0x41 <> Some (notdef_of font)
  /\ 0x41 ∈ (check_glyph_coverage font {[0x41]}).2
  /\ 0x41 ∉ (check_glyph_coverage font {[0x41]}).1.
Proof.
  intros font.
  assert (Hc : check_glyph_coverage font {[0x41]} = (∅, {[0x41]}))
    by (vm_compute; reflexivity).
  rewrite Hc; simpl. split; [discriminate|]. split; [discriminate|].
  split; set_solver.
Qed.
(** * generate_subset *)

(** [C10] When the source font file does not exist, [generate_subset]
    returns before anything else: the file system is unchanged, also when
    the character set is empty and an artifact sits at the output slot. *)
Theorem generate_subset_missing_source (w : World) (name : string)
    (weight : Z) (font_file : string) (chars : gset Z) :
  fonts w !! font_file = None ->
  generate_subset w name weight font_file chars = w.
Proof. intros H. unfold generate_subset. by rewrite H. Qed.

Lemma generate_subset_missing_source_witness :
  fonts stale_world !! "NotoSerifCJKsc-Medium.otf" = None /\
  generate_subset stale_world "CJKExtB-Serif" 500
    "NotoSerifCJKsc-Medium.otf" ∅ = stale_world.
Proof.
  split; [reflexivity |].
  apply generate_subset_missing_source. reflexivity.
Defined.

(** * Content scanner *)

Lemma range_matches_spec (cfg : RangeSpec) (cp : Z) :
  range_matches cfg cp = true <-> in_range cfg cp.
Proof.
  unfold range_matches, in_range.
  destruct (rare_only cfg); simpl;
    rewrite ?andb_true_r, ?andb_true_iff, !bool_decide_eq_true;
    naive_solver.
Qed.

(** The nested [if] of lines 130-134 is a single test. *)
Lemma classify_step_eq (cfg : RangeSpec) (n : string) (cp : Z)
    (found : gmap string (gset Z)) :
  (if bool_decide (start cfg <= cp <= end_ cfg) then
     if rare_only cfg && bool_decide (cp ∉ RARE_BASIC_CJK) then found
     else alter (union {[cp]}) n found
   else found)
  = if range_matches cfg cp then alter (union {[cp]}) n found else found.
Proof.
  unfold range_matches.
  case_bool_decide; [|reflexivity]. simpl.
  destruct (rare_only cfg); simpl; [|reflexivity].
  case_bool_decide; case_bool_decide; first [reflexivity | set_solver].
Qed.

Lemma classify_char_lookup (ranges : list (string * RangeSpec))
    (found : gmap string (gset Z)) (cp : Z) (name : string) :
  classify_char ranges found cp !! name =
  (fun s => if hit ranges name cp then {[cp]} ∪ s else s) <$> found !! name.
Proof.
  unfold classify_char, hit. revert found.
  induction ranges as [|[n cfg] rs IH]; intros found; simpl.
  - destruct (found !! name); reflexivity.
  - rewrite classify_step_eq, IH.
    destruct (range_matches cfg cp) eqn:Em.
    + destruct (decide (n = name)) as [->|Hne].
      * rewrite lookup_alter_eq, bool_decide_true by done.
        simpl. destruct (found !! name); simpl; [|reflexivity].
        f_equal. destruct (existsb _ rs); set_solver.
      * rewrite lookup_alter_ne, bool_decide_false by done. reflexivity.
    + rewrite andb_false_r. reflexivity.
Qed.

Lemma hits_nil (ranges : list (string * RangeSpec)) (name : string) :
  hits ranges name [] = ∅.
Proof. reflexivity. Qed.

Lemma hits_cons (ranges : list (string * RangeSpec)) (name : string)
    (cp : Z) (text : list Z) :
  hits ranges name (cp :: text) =
  (if hit ranges name cp then {[cp]} else ∅) ∪ hits ranges name text.
Proof.
  unfold hits. rewrite filter_cons.
  destruct (decide (hit ranges name cp = true)) as [H|H].
  - rewrite H. simpl. set_solver.
  - apply not_true_is_false in H. rewrite H. set_solver.
Qed.

Lemma hits_app (ranges : list (string * RangeSpec)) (name : string)
    (t1 t2 : list Z) :
  hits ranges name (t1 ++ t2) = hits ranges name t1 ∪ hits ranges name t2.
Proof. unfold hits. rewrite filter_app, list_to_set_app_L. reflexivity. Qed.

Lemma elem_of_hits (ranges : list (string * RangeSpec)) (name : string)
    (text : list Z) (c : Z) :
  c ∈ hits ranges name text <-> c ∈ text /\ hit ranges name c = true.
Proof.
  unfold hits. rewrite elem_of_list_to_set, list_elem_of_filter. tauto.
Qed.

Lemma fold_text_lookup (ranges : list (string * RangeSpec)) (text : list Z)
    (found : gmap string (gset Z)) (name : string) :
  fold_left (classify_char ranges) text found !! name =
  (fun s => s ∪ hits ranges name text) <$> found !! name.
Proof.
  revert found. induction text as [|cp text IH]; intros found; simpl.
  - destruct (found !! name); simpl; [f_equal; set_solver | reflexivity].
  - rewrite IH, classify_char_lookup, hits_cons.
    destruct (found !! name); simpl; [|reflexivity].
    f_equal. destruct (hit ranges name cp); set_solver.
Qed.

Lemma scan_files_lookup (ranges : list (string * RangeSpec))
    (found : gmap string (gset Z)) (files : list (list Z)) (name : string) :
  scan_files ranges found files !! name =
  (fun s => s ∪ hits ranges name (mjoin files)) <$> found !! name.
Proof.
  unfold scan_files. revert found.
  induction files as [|text files IH]; intros found; simpl.
  - destruct (found !! name); simpl; [f_equal; set_solver | reflexivity].
  - rewrite IH, fold_text_lookup, hits_app.
    destruct (found !! name); simpl; [|reflexivity].
    f_equal. set_solver.
Qed.

Lemma empty_found_lookup (ranges : list (string * RangeSpec))
    (name : string) :
  empty_found ranges !! name =
  if bool_decide (name ∈ fst <$> ranges) then Some ∅ else None.
Proof.
  unfold empty_found. induction ranges as [|[n cfg] rs IH]; simpl.
  - reflexivity.
  - rewrite lookup_insert. destruct (decide (n = name)) as [->|Hne].
    + rewrite bool_decide_true; [reflexivity | left].
    + rewrite IH. simpl.
      case_bool_decide as H1; case_bool_decide as H2; try done;
        exfalso; rewrite elem_of_cons in H2; naive_solver.
Qed.

Lemma scan_content_with_lookup (ranges : list (string * RangeSpec))
    (files : list (list Z)) (name : string) :
  scan_content_with ranges files !! name =
  (fun s => s ∪ hits ranges name (mjoin files)) <$> empty_found ranges !! name.
Proof.
  unfold scan_content_with. destruct files as [|text files].
  - destruct (empty_found ranges !! name); simpl;
      [f_equal; set_solver | reflexivity].
  - apply scan_files_lookup.
Qed.

(** Membership in a group: the character occurs in some file and some
    entry of the table with that name accepts it. *)
Lemma scan_content_with_elem (ranges : list (string * RangeSpec))
    (files : list (list Z)) (name : string) (c : Z) :
  c ∈ scan_content_with ranges files !!! name <->
  (exists text, text ∈ files /\ c ∈ text)
  /\ exists cfg, (name, cfg) ∈ ranges /\ in_range cfg c.
Proof.
  rewrite lookup_total_alt, scan_content_with_lookup, empty_found_lookup.
  case_bool_decide as Hn; simpl.
  - rewrite elem_of_union, elem_of_hits, list_elem_of_join.
    unfold hit. rewrite existsb_exists. split.
    + intros [Hc|[[t [Hc Ht]] [[n cfg] [Hin Hm]]]]; [set_solver|].
      apply andb_true_iff in Hm as [Hnm Hm].
      apply bool_decide_eq_true in Hnm as ->.
      split; [eauto|]. exists cfg.
      rewrite list_elem_of_In, <- range_matches_spec. done.
    + intros [[t [Ht Hc]] [cfg [Hin Hm]]]. right. split; [eauto|].
      exists (name, cfg). split; [by apply list_elem_of_In|].
      rewrite andb_true_iff, bool_decide_eq_true, range_matches_spec. done.
  - split; [set_solver|]. intros [_ [cfg [Hin _]]].
    exfalso. apply Hn. apply list_elem_of_fmap. exists (name, cfg). done.
Qed.

(** [C8] For every configured entry [(name, spec)] of a range table (names
    distinct, as dict keys are) and every character, the character is in
    [name]'s group iff it occurs in some content file, its code point lies
    in [[start, end]], and, for a whitelist-restricted entry, it is in
    [RARE_BASIC_CJK]. The test is per entry, so overlapping entries both
    collect the character. *)
Theorem scan_content_with_classifies (ranges : list (string * RangeSpec))
    (files : list (list Z)) (name : string) (spec : RangeSpec) (c : Z) :
  NoDup (fst <$> ranges) -> (name, spec) ∈ ranges ->
  (c ∈ scan_content_with ranges files !!! name <->
   (exists text, text ∈ files /\ c ∈ text)
   /\ start spec <= c <= end_ spec
   /\ (rare_only spec = true -> c ∈ RARE_BASIC_CJK)).
Proof.
  intros Hnd Hs. rewrite scan_content_with_elem.
  assert (Hu : forall cfg, (name, cfg) ∈ ranges -> cfg = spec).
  { intros cfg Hc.
    pose proof (elem_of_list_to_map_1 (M:=gmap string) ranges name cfg Hnd Hc)
      as H1.
    pose proof (elem_of_list_to_map_1 (M:=gmap string) ranges name spec Hnd Hs)
      as H2.
    congruence. }
  split.
  - intros [Ht [cfg [Hc Hr]]]. apply Hu in Hc as ->. exact (conj Ht Hr).
  - intros [Ht Hr]. split; [exact Ht|]. exists spec. done.
Qed.

Lemma scan_content_with_classifies_witness :
  0x8FCC ∈ scan_content_with overlap_ranges [[0x8FCC]] !!! "Low"
  /\ 0x8FCC ∈ scan_content_with overlap_ranges [[0x8FCC]] !!! "Rare".
Proof.
  assert (Hnd : NoDup (fst <$> overlap_ranges))
    by (apply (bool_decide_unpack _); vm_compute; exact I).
  assert (Ht : exists text, text ∈ [[0x8FCC]] /\ 0x8FCC ∈ text)
    by (exists [0x8FCC]; split; apply elem_of_cons; left; reflexivity).
  split.
  - apply (scan_content_with_classifies overlap_ranges [[0x8FCC]] "Low"
      {| start := 0x4E00; end_ := 0x9FFF; label := "low";
         weights := []; rare_only := false |} 0x8FCC Hnd
      ltac:(apply elem_of_cons; left; reflexivity)).
    split; [exact Ht|]. cbn. split; [lia | discriminate].
  - apply (scan_content_with_classifies overlap_ranges [[0x8FCC]] "Rare"
      {| start := 0x8000; end_ := 0x9FFF; label := "rare";
         weights := []; rare_only := true |} 0x8FCC Hnd
      ltac:(apply elem_of_cons; right; apply elem_of_cons; left; reflexivity)).
    split; [exact Ht|]. cbn. split; [lia | intros _; set_solver].
Defined.

(** [C9] The scan result is a map of duplicate-free sets, and processing
    the content files in any permuted order gives the same map. *)
Theorem scan_content_with_perm (ranges : list (string * RangeSpec))
    (files files' : list (list Z)) :
  files ≡ₚ files' ->
  scan_content_with ranges files = scan_content_with ranges files'
  /\ forall name, NoDup (elements (scan_content_with ranges files !!! name)).
Proof.
  intros Hp. split; [| intros; apply NoDup_elements].
  apply map_eq; intros name. rewrite !scan_content_with_lookup.
  assert (hits ranges name (mjoin files) = hits ranges name (mjoin files'))
    as ->; [| reflexivity].
  apply set_eq; intros c. rewrite !elem_of_hits. rewrite Hp. reflexivity.
Qed.

Lemma scan_content_with_perm_witness :
  corpus_ab ≡ₚ corpus_ba /\
  (scan_content_with RANGES corpus_ab
   = scan_content_with RANGES corpus_ba
   /\ forall name, NoDup (elements
        (scan_content_with RANGES corpus_ab !!! name))).
Proof.
  assert (Hp : corpus_ab ≡ₚ corpus_ba)
    by apply perm_swap.
  split; [exact Hp |]. exact (scan_content_with_perm RANGES _ _ Hp).
Defined.

(** [C5] (as amended) No baseline set is added: a character is in the set
    a group hands to the coverage check exactly when it occurs in some
    content file and the group's entry of [RANGES] accepts it. *)
Theorem scan_content_no_baseline (files : list (list Z)) (name : string)
    (c : Z) :
  c ∈ scan_content files !!! name <->
  (exists text, text ∈ files /\ c ∈ text)
  /\ exists cfg, (name, cfg) ∈ RANGES /\ in_range cfg c.
Proof. apply scan_content_with_elem. Qed.

(** [C5] as stated fails: for a corpus holding only U+8FCC, the set of
    ["CJKRare-Serif"] is non-empty, so it goes to the coverage check, and
    the ASCII letter [A] is not in it. *)
Lemma scan_content_baseline_counterexample :
  scan_content [[0x8FCC]] !!! "CJKRare-Serif" <> ∅
  /\ 0x41 ∉ scan_content [[0x8FCC]] !!! "CJKRare-Serif".
Proof.
  assert (H : scan_content [[0x8FCC]] !!! "CJKRare-Serif" = {[0x8FCC]})
    by (vm_compute; reflexivity).
  rewrite H. split; set_solver.
Qed.

(** * Effects of main on the file system *)

(** The inputs [main] reads (fonts, content) are never written. *)
Definition same_inputs (w w' : World) : Prop :=
  fonts w' = fonts w /\ content_dirs w' = content_dirs w.

Lemma same_inputs_refl (w : World) : same_inputs w w.
Proof. split; reflexivity. Qed.

Lemma same_inputs_set_out (w : World) (o : gmap string Artifact) :
  same_inputs w (set_out w o).
Proof. split; reflexivity. Qed.

Lemma same_inputs_trans (w1 w2 w3 : World) :
  same_inputs w1 w2 -> same_inputs w2 w3 -> same_inputs w1 w3.
Proof. unfold same_inputs. intros [-> ->] [-> ->]. split; reflexivity. Qed.

Create HintDb world.
#[local] Hint Resolve same_inputs_refl same_inputs_set_out : world.

Lemma generate_subset_inputs (w : World) (name : string) (weight : Z)
    (font_file : string) (chars : gset Z) :
  same_inputs w (generate_subset w name weight font_file chars).
Proof.
  unfold generate_subset.
  repeat case_match; auto with world.
Qed.

Lemma generate_subset_frame (w : World) (name : string) (weight : Z)
    (font_file : string) (chars : gset Z) (f : string) :
  slot name weight <> f ->
  out (generate_subset w name weight font_file chars) !! f = out w !! f.
Proof.
  intros Hne. unfold generate_subset.
  repeat case_match; simpl; try reflexivity.
  - by rewrite lookup_delete_ne.
  - by rewrite lookup_insert_ne.
Qed.

Lemma generate_subset_write (w : World) (name : string) (weight : Z)
    (font_file : string) (chars : gset Z) (font : Font) :
  fonts w !! font_file = Some font -> chars <> ∅ ->
  out (generate_subset w name weight font_file chars) !! slot name weight
  = Some {| art_source := font_file; art_chars := chars |}.
Proof.
  intros Hf Hc. unfold generate_subset. rewrite Hf.
  rewrite bool_decide_false by done. simpl. by rewrite lookup_insert_eq.
Qed.

Lemma generate_step_inputs (name : string) (chars : gset Z) (w : World)
    (entry : Z * string) :
  same_inputs w (generate_step name chars w entry).
Proof.
  destruct entry as [weight ff]. simpl.
  case_match; [apply generate_subset_inputs | apply same_inputs_refl].
Qed.

Lemma generate_step_frame (name : string) (chars : gset Z) (w : World)
    (weight : Z) (ff f : string) :
  slot name weight <> f ->
  out (generate_step name chars w (weight, ff)) !! f = out w !! f.
Proof.
  intros Hne. simpl. case_match; [by apply generate_subset_frame | done].
Qed.

Lemma generate_fold_inputs (name : string) (chars : gset Z)
    (l : list (Z * string)) (w : World) :
  same_inputs w (fold_left (generate_step name chars) l w).
Proof.
  revert w. induction l as [|e l IH]; intros w; simpl; [apply same_inputs_refl|].
  eapply same_inputs_trans; [apply generate_step_inputs | apply IH].
Qed.

Lemma generate_fold_frame (name : string) (chars : gset Z)
    (l : list (Z * string)) (w : World) (f : string) :
  (forall weight ff, (weight, ff) ∈ l -> slot name weight <> f) ->
  out (fold_left (generate_step name chars) l w) !! f = out w !! f.
Proof.
  revert w. induction l as [|[weight ff] l IH]; intros w Hl; simpl; [done|].
  rewrite IH.
  - apply generate_step_frame. apply (Hl weight ff). apply elem_of_cons. by left.
  - intros weight' ff' Hin. apply (Hl weight' ff').
    apply elem_of_cons. by right.
Qed.

(** The slot of an entry is not the slot of any later entry. *)
Lemma slots_nodup_cons (name : string) (weight : Z) (ff : string)
    (l : list (Z * string)) :
  NoDup ((fun p => slot name p.1) <$> (weight, ff) :: l) ->
  (forall weight' ff', (weight', ff') ∈ l -> slot name weight' <> slot name weight)
  /\ NoDup ((fun p => slot name p.1) <$> l).
Proof.
  simpl. intros Hnd. apply NoDup_cons in Hnd as [Hnot Hnd]. split; [|done].
  intros weight' ff' Hin Heq. apply Hnot. apply list_elem_of_fmap.
  exists (weight', ff'). simpl. split; [by rewrite Heq | done].
Qed.

Lemma generate_fold_hit (name : string) (chars : gset Z)
    (l : list (Z * string)) (w : World) (weight : Z) (ff : string)
    (font : Font) :
  chars <> ∅ -> NoDup ((fun p => slot name p.1) <$> l) ->
  (weight, ff) ∈ l -> fonts w !! ff = Some font ->
  out (fold_left (generate_step name chars) l w) !! slot name weight
  = Some {| art_source := ff; art_chars := chars |}.
Proof.
  intros Hc. revert w. induction l as [|[weight0 ff0] l IH];
    intros w Hnd Hin Hf; [by apply elem_of_nil in Hin|].
  apply slots_nodup_cons in Hnd as [Hnot Hnd]. cbn [fold_left].
  apply elem_of_cons in Hin as [Heq|Hin].
  - injection Heq as -> ->.
    rewrite generate_fold_frame; [| intros w' f' Hin' Heq; by apply (Hnot w' f')].
    simpl. rewrite Hf. by eapply generate_subset_write.
  - apply IH; [done | done |].
    destruct (generate_step_inputs name chars w (weight0, ff0)) as [-> _].
    done.
Qed.

Lemma generate_fold_miss (name : string) (chars : gset Z)
    (l : list (Z * string)) (w : World) (weight : Z) (ff : string) :
  NoDup ((fun p => slot name p.1) <$> l) ->
  (weight, ff) ∈ l -> fonts w !! ff = None ->
  out (fold_left (generate_step name chars) l w) !! slot name weight
  = out w !! slot name weight.
Proof.
  revert w. induction l as [|[weight0 ff0] l IH];
    intros w Hnd Hin Hf; [by apply elem_of_nil in Hin|].
  apply slots_nodup_cons in Hnd as [Hnot Hnd]. cbn [fold_left].
  apply elem_of_cons in Hin as [Heq|Hin].
  - injection Heq as -> ->.
    rewrite generate_fold_frame; [| intros w' f' Hin' Heq; by apply (Hnot w' f')].
    simpl. rewrite Hf. reflexivity.
  - rewrite IH; [| done | done |].
    + apply generate_step_frame. intros Heq.
      by apply (Hnot weight ff Hin).
    + destruct (generate_step_inputs name chars w (weight0, ff0)) as [-> _].
      done.
Qed.

Lemma cleanup_step_inputs (name : string) (w : World) (entry : Z * string) :
  same_inputs w (cleanup_step name w entry).
Proof. destruct entry. simpl. case_match; auto with world. Qed.

Lemma cleanup_fold_inputs (name : string) (l : list (Z * string)) (w : World) :
  same_inputs w (fold_left (cleanup_step name) l w).
Proof.
  revert w. induction l as [|e l IH]; intros w; simpl; [apply same_inputs_refl|].
  eapply same_inputs_trans; [apply cleanup_step_inputs | apply IH].
Qed.

Lemma cleanup_step_lookup (name : string) (w : World) (weight : Z)
    (ff f : string) :
  out (cleanup_step name w (weight, ff)) !! f =
  if bool_decide (f = slot name weight) then None else out w !! f.
Proof.
  simpl. case_bool_decide as Hf.
  - rewrite Hf. destruct (out w !! slot name weight) eqn:E; simpl.
    + by rewrite lookup_delete_eq.
    + exact E.
  - case_match; simpl; [|reflexivity]. by rewrite lookup_delete_ne.
Qed.

(** After the cleanup loop every slot of the list is gone and every other
    file is as before. *)
Lemma cleanup_fold_lookup (name : string) (l : list (Z * string))
    (w : World) (f : string) :
  out (fold_left (cleanup_step name) l w) !! f =
  if bool_decide (f ∈ (fun p => slot name p.1) <$> l) then None
  else out w !! f.
Proof.
  revert w. induction l as [|[weight ff] l IH]; intros w; cbn [fold_left].
  - reflexivity.
  - rewrite IH, cleanup_step_lookup. clear IH. simpl.
    repeat case_bool_decide; try reflexivity; set_solver.
Qed.

Lemma merge_sort_elem (ws : list (Z * string)) (x : Z * string) :
  x ∈ merge_sort weight_le ws <-> x ∈ ws.
Proof. by rewrite merge_sort_Permutation. Qed.

Lemma merge_sort_slots_nodup (name : string) (ws : list (Z * string)) :
  NoDup ((fun p => slot name p.1) <$> ws) ->
  NoDup ((fun p => slot name p.1) <$> merge_sort weight_le ws).
Proof. by rewrite merge_sort_Permutation. Qed.

Lemma effective_chars_fonts (w w' : World) (cfg : RangeSpec) (chars : gset Z) :
  fonts w' = fonts w -> effective_chars w' cfg chars = effective_chars w cfg chars.
Proof. intros H. unfold effective_chars. by rewrite H. Qed.

Lemma process_range_inputs (found : gmap string (gset Z)) (w : World)
    (entry : string * RangeSpec) :
  same_inputs w (process_range found w entry).
Proof.
  destruct entry as [name cfg]. simpl. unfold cleanup_stale, generate_all.
  repeat case_bool_decide; auto using same_inputs_refl, cleanup_fold_inputs,
    generate_fold_inputs.
Qed.

Lemma process_range_frame (found : gmap string (gset Z)) (w : World)
    (name : string) (cfg : RangeSpec) (f : string) :
  f ∉ (fun p => slot name p.1) <$> weights cfg ->
  out (process_range found w (name, cfg)) !! f = out w !! f.
Proof.
  intros Hf. simpl. case_bool_decide; [reflexivity|].
  case_bool_decide.
  - unfold cleanup_stale. rewrite cleanup_fold_lookup.
    by rewrite bool_decide_false.
  - unfold generate_all. apply generate_fold_frame.
    intros weight ff Hin Heq. apply Hf. apply list_elem_of_fmap.
    exists (weight, ff). split; [by rewrite <- Heq|].
    rewrite <- merge_sort_elem. exact Hin.
Qed.

(** What one group leaves at one of its own slots. *)
Lemma process_range_slot (found : gmap string (gset Z)) (w : World)
    (name : string) (cfg : RangeSpec) (weight : Z) (ff : string) :
  NoDup ((fun p => slot name p.1) <$> weights cfg) ->
  (weight, ff) ∈ weights cfg ->
  out (process_range found w (name, cfg)) !! slot name weight =
  if bool_decide (found !!! name = ∅) then out w !! slot name weight
  else if bool_decide (effective_chars w cfg (found !!! name) = ∅) then None
  else match fonts w !! ff with
       | Some _ => Some {| art_source := ff;
                           art_chars := effective_chars w cfg (found !!! name) |}
       | None => out w !! slot name weight
       end.
Proof.
  intros Hnd Hin. simpl. case_bool_decide; [reflexivity|].
  case_bool_decide as Hc.
  - unfold cleanup_stale. rewrite cleanup_fold_lookup.
    rewrite bool_decide_true; [reflexivity|].
    apply list_elem_of_fmap. exists (weight, ff). done.
  - unfold generate_all.
    destruct (fonts w !! ff) as [font|] eqn:Hf.
    + eapply generate_fold_hit; [done | by apply merge_sort_slots_nodup
        | by apply merge_sort_elem | exact Hf].
    + apply (generate_fold_miss _ _ _ _ _ ff); [by apply merge_sort_slots_nodup
        | by apply merge_sort_elem | exact Hf].
Qed.

Lemma main_fold_inputs (found : gmap string (gset Z))
    (rs : list (string * RangeSpec)) (w : World) :
  same_inputs w (fold_left (process_range found) rs w).
Proof.
  revert w. induction rs as [|e rs IH]; intros w; simpl; [apply same_inputs_refl|].
  eapply same_inputs_trans; [apply process_range_inputs | apply IH].
Qed.

Lemma main_fold_frame (found : gmap string (gset Z))
    (rs : list (string * RangeSpec)) (w : World) (f : string) :
  f ∉ mjoin ((fun '(name, cfg) => (fun wf => slot name wf.1) <$> weights cfg)
               <$> rs) ->
  out (fold_left (process_range found) rs w) !! f = out w !! f.
Proof.
  revert w. induction rs as [|[name cfg] rs IH]; intros w Hf; simpl; [done|].
  simpl in Hf. rewrite elem_of_app in Hf.
  rewrite IH by tauto. apply process_range_frame. tauto.
Qed.

Lemma main_run (p d o : string) (w : World) (files : list (list Z)) :
  content_dirs w !! d = Some files ->
  main [p; d; o] w = (0, fold_left (process_range (scan_content files)) RANGES w).
Proof. intros H. unfold main. by rewrite H. Qed.

Lemma extb_rare_slots_differ (w1 w2 : Z) :
  slot "CJKExtB-Serif" w1 <> slot "CJKRare-Serif" w2.
Proof. unfold slot. simpl. discriminate. Qed.

Lemma noto_slots_nodup (name : string) :
  name = "CJKExtB-Serif" \/ name = "CJKRare-Serif" ->
  NoDup ((fun p => slot name p.1) <$> noto_weights).
Proof.
  intros [-> | ->]; apply (bool_decide_unpack _); vm_compute; exact I.
Qed.

(** What a whole run leaves at a slot of the current configuration. *)
Lemma main_fold_slot (found : gmap string (gset Z)) (w : World)
    (name : string) (cfg : RangeSpec) (weight : Z) (ff : string) :
  (name, cfg) ∈ RANGES -> (weight, ff) ∈ weights cfg ->
  out (fold_left (process_range found) RANGES w) !! slot name weight =
  if bool_decide (found !!! name = ∅) then out w !! slot name weight
  else if bool_decide (effective_chars w cfg (found !!! name) = ∅) then None
  else match fonts w !! ff with
       | Some _ => Some {| art_source := ff;
                           art_chars := effective_chars w cfg (found !!! name) |}
       | None => out w !! slot name weight
       end.
Proof.
  intros Hr Hw. unfold RANGES in Hr.
  rewrite !elem_of_cons, elem_of_nil in Hr.
  destruct Hr as [Hr|[Hr|[]]]; injection Hr as -> ->; unfold RANGES;
    cbn [fold_left].
  - rewrite process_range_frame.
    + apply (process_range_slot _ _ _ _ _ ff);
        [apply noto_slots_nodup; by left | exact Hw].
    + intros Hin. apply list_elem_of_fmap in Hin as [q [Heq _]].
      by apply (extb_rare_slots_differ weight q.1).
  - destruct (process_range_inputs found w
                ("CJKExtB-Serif", ext_b_cfg))
      as [Hfonts _].
    rewrite (process_range_slot _ _ _ _ _ ff);
      [| apply noto_slots_nodup; by right | exact Hw].
    rewrite (effective_chars_fonts w) by exact Hfonts.
    rewrite Hfonts, process_range_frame; [reflexivity|].
    intros Hin. apply list_elem_of_fmap in Hin as [q [Heq _]].
    by apply (extb_rare_slots_differ q.1 weight).
Qed.

Lemma effective_chars_empty (w : World) (cfg : RangeSpec) :
  effective_chars w cfg ∅ = ∅.
Proof.
  unfold effective_chars, check_glyph_coverage.
  repeat case_match; reflexivity.
Qed.

Lemma effective_chars_no_regular (w : World) (cfg : RangeSpec)
    (regular_file : string) (chars : gset Z) :
  dict_get 400 (weights cfg) = Some regular_file ->
  fonts w !! regular_file = None ->
  effective_chars w cfg chars = chars.
Proof.
  intros H1 H2. unfold effective_chars. rewrite H1.
  case_bool_decide; [reflexivity|]. by rewrite H2.
Qed.

(** * Artifact reconciliation in main *)

(** [C3] (code defect) A group whose scanned set is empty is skipped at
    lines 205-207 without the stale-file cleanup of lines 229-236: after a
    run over ASCII-only content, the old [CJKExtB-Serif-400.woff2] is
    still there. *)
Theorem main_keeps_stale_when_scan_empty :
  scan_content [[0x41; 0x42]] !!! "CJKExtB-Serif" = ∅
  /\ fst (main run_argv ascii_world) = 0
  /\ out (snd (main run_argv ascii_world)) !! slot "CJKExtB-Serif" 400
     = Some stale_art.
Proof. split; [|split]; vm_compute; reflexivity. Qed.

(** The sibling path: when the coverage check empties the set, the same
    stale file is removed. *)
Example main_removes_stale_when_coverage_empty :
  out (snd (main run_argv undrawn_world)) !! slot "CJKExtB-Serif" 400 = None.
Proof. vm_compute. reflexivity. Qed.

(** [C4] (as amended) A run never writes or deletes an output file whose
    name is not [{name}-{weight}.woff2] for a [(name, weight)] of the
    current [RANGES]; files of retired naming schemes are left in place. *)
Theorem main_only_touches_current_slots (argv : list string) (w : World)
    (f : string) :
  f ∉ current_slots -> out (snd (main argv w)) !! f = out w !! f.
Proof.
  intros Hf. unfold main.
  destruct argv as [|a [|d [|o [|x rest]]]]; try reflexivity.
  destruct (content_dirs w !! d); [|reflexivity].
  apply main_fold_frame. exact Hf.
Qed.

Lemma main_only_touches_current_slots_witness :
  ("NushuSerif-400.woff2" ∉ current_slots)
  /\ out (snd (main run_argv retired_world)) !! "NushuSerif-400.woff2"
     = out retired_world !! "NushuSerif-400.woff2".
Proof.
  assert (H : "NushuSerif-400.woff2" ∉ current_slots)
    by (apply (bool_decide_unpack _); vm_compute; exact I).
  split; [exact H|]. exact (main_only_touches_current_slots _ _ _ H).
Defined.

(** [C4] as stated fails: no sweep exists; the retired
    [NushuSerif-400.woff2] survives a run. *)
Lemma main_retired_file_counterexample :
  out retired_world !! "NushuSerif-400.woff2" <> None
  /\ out (snd (main run_argv retired_world)) !! "NushuSerif-400.woff2" <> None.
Proof. split; vm_compute; discriminate. Qed.

(** [C6] (as amended) A missing Regular (400) source font is not fatal:
    the run exits with code 0, skips the coverage check, and every weight
    whose source exists gets an artifact built from the whole scanned set. *)
Theorem main_reference_font_missing (p d o : string) (w : World)
    (files : list (list Z)) (name : string) (cfg : RangeSpec)
    (regular_file : string) (weight : Z) (ff : string) (font : Font) :
  content_dirs w !! d = Some files ->
  (name, cfg) ∈ RANGES ->
  dict_get 400 (weights cfg) = Some regular_file ->
  fonts w !! regular_file = None ->
  scan_content files !!! name <> ∅ ->
  (weight, ff) ∈ weights cfg -> fonts w !! ff = Some font ->
  fst (main [p; d; o] w) = 0
  /\ out (snd (main [p; d; o] w)) !! slot name weight
     = Some {| art_source := ff; art_chars := scan_content files !!! name |}.
Proof.
  intros Hd Hr Hg Hreg Hne Hw Hf.
  rewrite (main_run p d o w files Hd). cbn [fst snd]. split; [reflexivity|].
  rewrite (main_fold_slot _ _ _ _ _ ff Hr Hw).
  rewrite (effective_chars_no_regular w cfg regular_file _ Hg Hreg).
  rewrite !bool_decide_false by done. by rewrite Hf.
Qed.

Lemma main_reference_font_missing_witness :
  fst (main run_argv no_regular_world) = 0
  /\ out (snd (main run_argv no_regular_world)) !! slot "CJKRare-Serif" 500
     = Some {| art_source := "NotoSerifCJKsc-Medium.otf";
               art_chars := scan_content [[0x8FCC]] !!! "CJKRare-Serif" |}.
Proof.
  assert (Hne : scan_content [[0x8FCC]] !!! "CJKRare-Serif" <> ∅).
  { assert (E : scan_content [[0x8FCC]] !!! "CJKRare-Serif" = {[0x8FCC]})
      by (vm_compute; reflexivity).
    rewrite E. set_solver. }
  exact (main_reference_font_missing "subset-fonts.py" "content" "public/fonts"
           no_regular_world [[0x8FCC]] "CJKRare-Serif" rare_cfg
           "NotoSerifCJKsc-Regular.otf" 500 "NotoSerifCJKsc-Medium.otf" noto_font
           ltac:(vm_compute; reflexivity)
           ltac:(apply elem_of_cons; right; apply elem_of_cons; left; reflexivity)
           ltac:(vm_compute; reflexivity) ltac:(vm_compute; reflexivity) Hne
           ltac:(simpl; apply elem_of_cons; right; apply elem_of_cons; right;
                 apply elem_of_cons; right; apply elem_of_cons; left; reflexivity)
           ltac:(vm_compute; reflexivity)).
Defined.

(** [C6] as stated fails: with the Regular source missing and a non-empty
    scanned set, the run ends with exit code 0 and writes artifacts. *)
Lemma main_no_regular_counterexample :
  fonts no_regular_world !! "NotoSerifCJKsc-Regular.otf" = None
  /\ scan_content [[0x8FCC]] !!! "CJKRare-Serif" = {[0x8FCC]}
  /\ fst (main run_argv no_regular_world) = 0
  /\ out (snd (main run_argv no_regular_world)) !! "CJKRare-Serif-500.woff2"
     = Some {| art_source := "NotoSerifCJKsc-Medium.otf";
               art_chars := {[0x8FCC]} |}.
Proof. repeat split; vm_compute; reflexivity. Qed.

(** [C7] (as amended) Take a weight other than 400 whose source font is
    missing. The run exits with code 0. When its group has characters left
    after the coverage check, the weight is skipped: its slot is neither
    regenerated nor deleted, and every weight of the group whose source
    exists is generated from that set. When the coverage check empties a
    non-empty scanned set, the cleanup leaves no file at the slot of any
    configured weight of the group, this one included. *)
Theorem main_missing_weight_skipped (p d o : string) (w : World)
    (files : list (list Z)) (name : string) (cfg : RangeSpec)
    (weight : Z) (ff : string) :
  content_dirs w !! d = Some files ->
  (name, cfg) ∈ RANGES ->
  (weight, ff) ∈ weights cfg -> weight <> 400 ->
  fonts w !! ff = None ->
  fst (main [p; d; o] w) = 0
  /\ (effective_chars w cfg (scan_content files !!! name) <> ∅ ->
      out (snd (main [p; d; o] w)) !! slot name weight
      = out w !! slot name weight
      /\ (forall weight' ff' font', (weight', ff') ∈ weights cfg ->
          fonts w !! ff' = Some font' ->
          out (snd (main [p; d; o] w)) !! slot name weight'
          = Some {| art_source := ff';
                    art_chars := effective_chars w cfg
                                   (scan_content files !!! name) |}))
  /\ (scan_content files !!! name <> ∅ ->
      effective_chars w cfg (scan_content files !!! name) = ∅ ->
      forall weight' ff', (weight', ff') ∈ weights cfg ->
      out (snd (main [p; d; o] w)) !! slot name weight' = None).
Proof.
  intros Hd Hr Hw _ Hf.
  rewrite (main_run p d o w files Hd). cbn [fst snd].
  split; [reflexivity|]. split.
  - intros Hne.
    assert (Hscan : scan_content files !!! name <> ∅).
    { intros E. apply Hne. rewrite E. apply effective_chars_empty. }
    split.
    + rewrite (main_fold_slot _ _ _ _ _ ff Hr Hw).
      rewrite !bool_decide_false by done. by rewrite Hf.
    + intros weight' ff' font' Hw' Hf'.
      rewrite (main_fold_slot _ _ _ _ _ ff' Hr Hw').
      rewrite !bool_decide_false by done. by rewrite Hf'.
  - intros Hscan He weight' ff' Hw'.
    rewrite (main_fold_slot _ _ _ _ _ ff' Hr Hw').
    rewrite bool_decide_false by exact Hscan.
    by rewrite bool_decide_true by exact He.
Qed.

Lemma main_missing_weight_skipped_witness :
  (fst (main run_argv no_light_world) = 0
   /\ out (snd (main run_argv no_light_world)) !! slot "CJKRare-Serif" 200
      = out no_light_world !! slot "CJKRare-Serif" 200
   /\ (forall weight' ff' font', (weight', ff') ∈ weights rare_cfg ->
       fonts no_light_world !! ff' = Some font' ->
       out (snd (main run_argv no_light_world)) !! slot "CJKRare-Serif" weight'
       = Some {| art_source := ff';
                 art_chars := effective_chars no_light_world rare_cfg
                                (scan_content [[0x8FCC]] !!! "CJKRare-Serif") |}))
  /\ out (snd (main run_argv no_light_blank_world)) !! slot "CJKRare-Serif" 200
     = None.
Proof.
  assert (Hne : effective_chars no_light_world rare_cfg
                  (scan_content [[0x8FCC]] !!! "CJKRare-Serif") <> ∅).
  { assert (E : effective_chars no_light_world rare_cfg
                  (scan_content [[0x8FCC]] !!! "CJKRare-Serif") = {[0x8FCC]})
      by (vm_compute; reflexivity).
    rewrite E. set_solver. }
  assert (Hs : scan_content [[0x8FCC]] !!! "CJKRare-Serif" <> ∅).
  { assert (E : scan_content [[0x8FCC]] !!! "CJKRare-Serif" = {[0x8FCC]})
      by (vm_compute; reflexivity).
    rewrite E. set_solver. }
  assert (He : effective_chars no_light_blank_world rare_cfg
                 (scan_content [[0x8FCC]] !!! "CJKRare-Serif") = ∅)
    by (vm_compute; reflexivity).
  pose proof (main_missing_weight_skipped "subset-fonts.py" "content"
           "public/fonts" no_light_world [[0x8FCC]] "CJKRare-Serif" rare_cfg
           200 "NotoSerifCJKsc-ExtraLight.otf"
           ltac:(vm_compute; reflexivity)
           ltac:(apply elem_of_cons; right; apply elem_of_cons; left; reflexivity)
           ltac:(simpl; apply elem_of_cons; left; reflexivity)
           ltac:(lia) ltac:(vm_compute; reflexivity)) as [H0 [H1 _]].
  pose proof (main_missing_weight_skipped "subset-fonts.py" "content"
           "public/fonts" no_light_blank_world [[0x8FCC]] "CJKRare-Serif" rare_cfg
           200 "NotoSerifCJKsc-ExtraLight.otf"
           ltac:(vm_compute; reflexivity)
           ltac:(apply elem_of_cons; right; apply elem_of_cons; left; reflexivity)
           ltac:(simpl; apply elem_of_cons; left; reflexivity)
           ltac:(lia) ltac:(vm_compute; reflexivity)) as [_ [_ H2]].
  split; [split; [exact H0 | exact (H1 Hne)] |].
  exact (H2 Hs He 200 "NotoSerifCJKsc-ExtraLight.otf"
           ltac:(simpl; apply elem_of_cons; left; reflexivity)).
Defined.

(** [C7] as stated fails: when the coverage check empties the group's set,
    the cleanup of lines 232-235 deletes the slot of the weight whose
    source is missing. *)
Lemma main_missing_weight_deleted_counterexample :
  fonts no_light_blank_world !! "NotoSerifCJKsc-ExtraLight.otf" = None
  /\ out no_light_blank_world !! slot "CJKRare-Serif" 200 = Some stale_art
  /\ out (snd (main run_argv no_light_blank_world)) !! slot "CJKRare-Serif" 200
     = None.
Proof. repeat split; vm_compute; reflexivity. Qed.

(** * Further properties of the script *)

Lemma world_eq (a b : World) :
  fonts a = fonts b -> content_dirs a = content_dirs b -> out a = out b ->
  a = b.
Proof. destruct a, b; simpl; intros -> -> ->; reflexivity. Qed.

Lemma effective_chars_subset (w : World) (cfg : RangeSpec) (chars : gset Z) :
  effective_chars w cfg chars ⊆ chars.
Proof.
  unfold effective_chars. repeat case_match; try done.
  intros c Hc. apply (check_glyph_coverage_spec _ chars c) in Hc. tauto.
Qed.

(** A current slot names one (group, weight) pair of [RANGES]. *)
Lemma current_slots_inv (f : string) :
  f ∈ current_slots ->
  exists name cfg weight ff, (name, cfg) ∈ RANGES /\ (weight, ff) ∈ weights cfg
                             /\ f = slot name weight.
Proof.
  unfold current_slots. rewrite list_elem_of_join.
  intros [l [Hf Hl]]. apply list_elem_of_fmap in Hl as [[name cfg] [-> Hr]].
  apply list_elem_of_fmap in Hf as [[weight ff] [-> Hw]].
  exists name, cfg, weight, ff. done.
Qed.

(** A configured slot that holds a file after a run holds either the file
    it held before, or an artifact subset from that slot's own source font,
    which exists, with a non-empty set of characters scanned for that group.
    (The run may also leave the slot empty; see [main_clears_group].) *)
Theorem main_slot_contents (p d o : string) (w : World)
    (files : list (list Z)) (name : string) (cfg : RangeSpec)
    (weight : Z) (ff : string) (a : Artifact) :
  content_dirs w !! d = Some files ->
  (name, cfg) ∈ RANGES -> (weight, ff) ∈ weights cfg ->
  out (snd (main [p; d; o] w)) !! slot name weight = Some a ->
  out w !! slot name weight = Some a
  \/ (art_source a = ff /\ is_Some (fonts w !! ff)
      /\ art_chars a <> ∅ /\ art_chars a ⊆ scan_content files !!! name).
Proof.
  intros Hd Hr Hw. rewrite (main_run p d o w files Hd). cbn [snd].
  rewrite (main_fold_slot _ _ _ _ _ ff Hr Hw).
  case_bool_decide; [by left|].
  case_bool_decide as He; [discriminate|].
  destruct (fonts w !! ff) as [font|] eqn:Hf; [|by left].
  intros Ha. injection Ha as <-. right. simpl.
  split; [done|]. split; [by eexists|]. split; [done|].
  apply effective_chars_subset.
Qed.

Lemma main_slot_contents_witness :
  out (snd (main run_argv no_regular_world)) !! slot "CJKRare-Serif" 500
    = Some {| art_source := "NotoSerifCJKsc-Medium.otf"; art_chars := {[0x8FCC]} |}
  /\ (out no_regular_world !! slot "CJKRare-Serif" 500
        = Some {| art_source := "NotoSerifCJKsc-Medium.otf";
                  art_chars := {[0x8FCC]} |}
      \/ (art_source {| art_source := "NotoSerifCJKsc-Medium.otf";
                        art_chars := {[0x8FCC]} |} = "NotoSerifCJKsc-Medium.otf"
          /\ is_Some (fonts no_regular_world !! "NotoSerifCJKsc-Medium.otf")
          /\ art_chars {| art_source := "NotoSerifCJKsc-Medium.otf";
                          art_chars := {[0x8FCC]} |} <> ∅
          /\ art_chars {| art_source := "NotoSerifCJKsc-Medium.otf";
                          art_chars := {[0x8FCC]} |}
             ⊆ scan_content [[0x8FCC]] !!! "CJKRare-Serif")).
Proof.
  assert (H : out (snd (main run_argv no_regular_world)) !! slot "CJKRare-Serif" 500
    = Some {| art_source := "NotoSerifCJKsc-Medium.otf"; art_chars := {[0x8FCC]} |})
    by (vm_compute; reflexivity).
  split; [exact H|].
  exact (main_slot_contents "subset-fonts.py" "content" "public/fonts"
           no_regular_world [[0x8FCC]] "CJKRare-Serif" rare_cfg
           500 "NotoSerifCJKsc-Medium.otf" _
           ltac:(vm_compute; reflexivity)
           ltac:(apply elem_of_cons; right; apply elem_of_cons; left; reflexivity)
           ltac:(simpl; apply elem_of_cons; right; apply elem_of_cons; right;
                 apply elem_of_cons; right; apply elem_of_cons; left; reflexivity)
           H).
Defined.

(** With the Regular (400) source present, no artifact a run writes holds
    a character that the Regular font lacks a real glyph for. *)
Theorem main_artifacts_covered (p d o : string) (w : World)
    (files : list (list Z)) (name : string) (cfg : RangeSpec)
    (weight : Z) (ff : string) (a : Artifact) (regular : Font) (c : Z) :
  content_dirs w !! d = Some files ->
  (name, cfg) ∈ RANGES -> (weight, ff) ∈ weights cfg ->
  fonts w !! "NotoSerifCJKsc-Regular.otf" = Some regular ->
  out (snd (main [p; d; o] w)) !! slot name weight = Some a ->
  out w !! slot name weight <> Some a ->
  c ∈ art_chars a -> ~ glyph_missing regular c.
Proof.
  intros Hd Hr Hw Hreg. rewrite (main_run p d o w files Hd). cbn [snd].
  rewrite (main_fold_slot _ _ _ _ _ ff Hr Hw).
  assert (Hg : dict_get 400 (weights cfg) = Some "NotoSerifCJKsc-Regular.otf").
  { unfold RANGES in Hr. rewrite !elem_of_cons, elem_of_nil in Hr.
    destruct Hr as [Hr|[Hr|[]]]; injection Hr as _ ->; reflexivity. }
  case_bool_decide; [congruence|].
  case_bool_decide; [discriminate|].
  destruct (fonts w !! ff); [|congruence].
  intros Ha _ Hc. injection Ha as <-. simpl in Hc.
  unfold effective_chars in Hc. rewrite Hg, Hreg in Hc. simpl in Hc.
  apply (check_glyph_coverage_spec regular _ c) in Hc. tauto.
Qed.


Lemma main_artifacts_covered_witness :
  ~ glyph_missing noto_font 0x8FCC.
Proof.
  exact (main_artifacts_covered "subset-fonts.py" "content" "public/fonts"
           no_light_world [[0x8FCC]] "CJKRare-Serif" rare_cfg
           500 "NotoSerifCJKsc-Medium.otf"
           {| art_source := "NotoSerifCJKsc-Medium.otf"; art_chars := {[0x8FCC]} |}
           noto_font 0x8FCC
           ltac:(vm_compute; reflexivity)
           ltac:(apply elem_of_cons; right; apply elem_of_cons; left; reflexivity)
           ltac:(apply (bool_decide_unpack _); vm_compute; exact I)
           ltac:(vm_compute; reflexivity)
           ltac:(vm_compute; reflexivity)
           ltac:(vm_compute; discriminate)
           ltac:(set_solver)).
Defined.
(** Running the script a second time, with the same arguments, on the
    state the first run left gives the same exit code and leaves every
    output slot with the same source font and the same character set as
    the first run did (an [Artifact] records these two, not the bytes of
    the saved file). *)
Theorem main_idempotent (argv : list string) (w : World) :
  main argv (snd (main argv w)) = main argv w.
Proof.
  destruct argv as [|p [|d [|o [|x rest]]]]; [reflexivity..| |reflexivity].
  destruct (content_dirs w !! d) as [files|] eqn:E;
    [| unfold main; rewrite E; cbn [snd]; by rewrite E].
  rewrite (main_run p d o w files E). cbn [snd].
  remember (fold_left (process_range (scan_content files)) RANGES w) as w' eqn:Ew.
  destruct (main_fold_inputs (scan_content files) RANGES w) as [Hf Hc].
  rewrite <- Ew in Hf, Hc.
  rewrite (main_run p d o w' files) by (rewrite Hc; exact E).
  f_equal.
  destruct (main_fold_inputs (scan_content files) RANGES w') as [Hf' Hc'].
  apply world_eq; [done | done |].
  apply map_eq. intros f.
  destruct (decide (f ∈ current_slots)) as [Hin|Hnin].
  - apply current_slots_inv in Hin as (name&cfg&weight&ff&Hr&Hw&->).
    rewrite (main_fold_slot _ w' _ _ _ ff Hr Hw).
    case_bool_decide; [reflexivity|].
    rewrite (effective_chars_fonts w) by exact Hf. rewrite Hf.
    assert (Hw' : out w' !! slot name weight =
      if bool_decide (scan_content files !!! name = ∅) then out w !! slot name weight
      else if bool_decide (effective_chars w cfg (scan_content files !!! name) = ∅)
      then None
      else match fonts w !! ff with
           | Some _ => Some {| art_source := ff;
                 art_chars := effective_chars w cfg (scan_content files !!! name) |}
           | None => out w !! slot name weight
           end) by (rewrite Ew; apply main_fold_slot; done).
    rewrite Hw'; clear Hw'. rewrite (bool_decide_false (scan_content files !!! name = ∅)) by done.
    case_bool_decide; [reflexivity|].
    destruct (fonts w !! ff); reflexivity.
  - apply main_fold_frame. exact Hnin.
Qed.


(** A content directory without any [.md]/[.mdx] file gives an exit code
    of 0 and leaves every file as it was, stale artifacts included. *)
Theorem main_no_content_files (p d o : string) (w : World) :
  content_dirs w !! d = Some [] -> main [p; d; o] w = (0, w).
Proof.
  intros E. rewrite (main_run p d o w [] E). apply (f_equal (pair 0)).
  assert (Hs : forall name, scan_content [] !!! name = ∅).
  { intros name. apply set_eq. intros c. split; [|set_solver].
    unfold scan_content. rewrite scan_content_with_elem.
    intros [[t [Ht _]] _]. set_solver. }
  generalize RANGES. intros rs. revert w E.
  induction rs as [|[name cfg] rs IH]; intros w E; [reflexivity|].
  cbn [fold_left]. unfold process_range at 2.
  rewrite bool_decide_true by apply Hs. by apply IH.
Qed.

Lemma main_no_content_files_witness :
  main run_argv {| content_dirs := {["content" := []]};
                   fonts := fonts_without "" noto_font;
                   out := {["CJKExtB-Serif-400.woff2" := stale_art]} |}
  = (0, {| content_dirs := {["content" := []]};
           fonts := fonts_without "" noto_font;
           out := {["CJKExtB-Serif-400.woff2" := stale_art]} |}).
Proof.
  apply main_no_content_files. vm_compute. reflexivity.
Defined.

(** The coverage check works character by character: checking a union
    gives the union of the covered sets and the union of the missing sets. *)
Theorem check_glyph_coverage_union (font : Font) (A B : gset Z) :
  check_glyph_coverage font (A ∪ B)
  = ((check_glyph_coverage font A).1 ∪ (check_glyph_coverage font B).1,
     (check_glyph_coverage font A).2 ∪ (check_glyph_coverage font B).2).
Proof.
  destruct (check_glyph_coverage font (A ∪ B)) as [cov mis] eqn:Hu.
  pose proof (check_glyph_coverage_spec font (A ∪ B)) as Su.
  pose proof (check_glyph_coverage_spec font A) as Sa.
  pose proof (check_glyph_coverage_spec font B) as Sb.
  rewrite Hu in Su. simpl in Su.
  f_equal; apply set_eq; intros c;
    destruct (Su c) as [Su2 Su1]; destruct (Sa c) as [Sa2 Sa1];
    destruct (Sb c) as [Sb2 Sb1];
    rewrite elem_of_union; [rewrite Su1, Sa1, Sb1 | rewrite Su2, Sa2, Sb2];
    set_solver.
Qed.

(** Scanning a corpus split in two parts gives, for every group, the union
    of what the two parts give. *)
Theorem scan_content_with_app (ranges : list (string * RangeSpec))
    (files1 files2 : list (list Z)) (name : string) :
  scan_content_with ranges (files1 ++ files2) !!! name
  = scan_content_with ranges files1 !!! name
    ∪ scan_content_with ranges files2 !!! name.
Proof.
  rewrite !lookup_total_alt, !scan_content_with_lookup.
  destruct (empty_found ranges !! name); simpl; [|set_solver].
  rewrite join_app, hits_app. set_solver.
Qed.

(** [scan_content] returns exactly one set per name of the range table,
    with or without content files. *)
Theorem scan_content_with_dom (ranges : list (string * RangeSpec))
    (files : list (list Z)) :
  dom (scan_content_with ranges files) = list_to_set (fst <$> ranges).
Proof.
  apply set_eq. intros name.
  rewrite elem_of_dom, elem_of_list_to_set, scan_content_with_lookup,
    empty_found_lookup.
  case_bool_decide; simpl; split; try done.
Qed.

(** With the shipped range table the two groups never share a character:
    the rare group holds only the allow-listed characters and the Ext-B
    group only code points of [0x20000..0x2A6DF]. *)
Theorem scan_content_groups (files : list (list Z)) :
  scan_content files !!! "CJKRare-Serif" ⊆ RARE_BASIC_CJK
  /\ (forall c, c ∈ scan_content files !!! "CJKExtB-Serif" ->
        0x20000 <= c <= 0x2A6DF)
  /\ scan_content files !!! "CJKExtB-Serif"
     ∩ scan_content files !!! "CJKRare-Serif" = ∅.
Proof.
  assert (Hr : forall c, c ∈ scan_content files !!! "CJKRare-Serif" ->
             c ∈ RARE_BASIC_CJK /\ 0x4E00 <= c <= 0x9FFF).
  { intros c. unfold scan_content. rewrite scan_content_with_elem.
    intros [_ [cfg [Hin [Hc Hw]]]]. unfold RANGES in Hin.
    rewrite !elem_of_cons, elem_of_nil in Hin.
    destruct Hin as [Hin|[Hin|[]]]; [discriminate Hin|injection Hin as ->].
    split; [by apply Hw | exact Hc]. }
  assert (He : forall c, c ∈ scan_content files !!! "CJKExtB-Serif" ->
             0x20000 <= c <= 0x2A6DF).
  { intros c. unfold scan_content. rewrite scan_content_with_elem.
    intros [_ [cfg [Hin [Hc _]]]]. unfold RANGES in Hin.
    rewrite !elem_of_cons, elem_of_nil in Hin.
    destruct Hin as [Hin|[Hin|[]]]; [injection Hin as ->; exact Hc|discriminate Hin]. }
  split; [intros c Hc; by apply Hr|]. split; [exact He|].
  apply set_eq. intros c. rewrite elem_of_intersection. split; [|set_solver].
  intros [H1 H2]. apply He in H1. apply Hr in H2. lia.
Qed.

(** When a group has scanned characters but the Regular font draws none of
    them, the run leaves no artifact at any slot of that group. *)
Theorem main_clears_group (p d o : string) (w : World)
    (files : list (list Z)) (name : string) (cfg : RangeSpec)
    (weight : Z) (ff : string) :
  content_dirs w !! d = Some files ->
  (name, cfg) ∈ RANGES -> (weight, ff) ∈ weights cfg ->
  scan_content files !!! name <> ∅ ->
  effective_chars w cfg (scan_content files !!! name) = ∅ ->
  out (snd (main [p; d; o] w)) !! slot name weight = None.
Proof.
  intros Hd Hr Hw Hs He. rewrite (main_run p d o w files Hd). cbn [snd].
  rewrite (main_fold_slot _ _ _ _ _ ff Hr Hw).
  rewrite bool_decide_false by exact Hs.
  by rewrite bool_decide_true by exact He.
Qed.

Lemma main_clears_group_witness :
  out (snd (main run_argv undrawn_world)) !! "CJKExtB-Serif-400.woff2" = None.
Proof.
  exact (main_clears_group "subset-fonts.py" "content" "public/fonts"
           undrawn_world [[0x20002]] "CJKExtB-Serif" ext_b_cfg
           400 "NotoSerifCJKsc-Regular.otf"
           ltac:(vm_compute; reflexivity)
           ltac:(apply elem_of_cons; left; reflexivity)
           ltac:(apply (bool_decide_unpack _); vm_compute; exact I)
           ltac:(vm_compute; discriminate)
           ltac:(vm_compute; reflexivity)).
Defined.

(** All weights of a group that a run writes get the same character set. *)
Theorem main_group_same_chars (p d o : string) (w : World)
    (files : list (list Z)) (name : string) (cfg : RangeSpec)
    (weight1 weight2 : Z) (ff1 ff2 : string) (a1 a2 : Artifact) :
  content_dirs w !! d = Some files -> (name, cfg) ∈ RANGES ->
  (weight1, ff1) ∈ weights cfg -> (weight2, ff2) ∈ weights cfg ->
  out (snd (main [p; d; o] w)) !! slot name weight1 = Some a1 ->
  out (snd (main [p; d; o] w)) !! slot name weight2 = Some a2 ->
  out w !! slot name weight1 <> Some a1 ->
  out w !! slot name weight2 <> Some a2 ->
  art_chars a1 = art_chars a2.
Proof.
  intros Hd Hr Hw1 Hw2. rewrite (main_run p d o w files Hd). cbn [snd].
  rewrite (main_fold_slot _ _ _ _ _ ff1 Hr Hw1),
    (main_fold_slot _ _ _ _ _ ff2 Hr Hw2).
  case_bool_decide; [congruence|].
  case_bool_decide; [discriminate|].
  destruct (fonts w !! ff1); [|congruence].
  destruct (fonts w !! ff2); [|congruence].
  intros H1 H2 _ _. injection H1 as <-. injection H2 as <-. reflexivity.
Qed.

Lemma main_group_same_chars_witness :
  art_chars {| art_source := "NotoSerifCJKsc-Light.otf"; art_chars := {[0x8FCC]} |}
  = art_chars {| art_source := "NotoSerifCJKsc-Black.otf"; art_chars := {[0x8FCC]} |}.
Proof.
  exact (main_group_same_chars "subset-fonts.py" "content" "public/fonts"
           no_light_world [[0x8FCC]] "CJKRare-Serif" rare_cfg
           300 900 "NotoSerifCJKsc-Light.otf" "NotoSerifCJKsc-Black.otf"
           {| art_source := "NotoSerifCJKsc-Light.otf"; art_chars := {[0x8FCC]} |}
           {| art_source := "NotoSerifCJKsc-Black.otf"; art_chars := {[0x8FCC]} |}
           ltac:(vm_compute; reflexivity)
           ltac:(apply elem_of_cons; right; apply elem_of_cons; left; reflexivity)
           ltac:(apply (bool_decide_unpack _); vm_compute; exact I)
           ltac:(apply (bool_decide_unpack _); vm_compute; exact I)
           ltac:(vm_compute; reflexivity)
           ltac:(vm_compute; reflexivity)
           ltac:(vm_compute; discriminate)
           ltac:(vm_compute; discriminate)).
Defined.
